(** * xPilot plugin: string utilities and the notification panel

    A shallow embedding of [Utilities.h] (the string helpers [strScpy],
    [strAtMost], [str_tolower], [str_toupper], [tokenize], [join]) and of the
    [NotificationPanel] class declared in [NotificationPanel.h].

    Conventions of the embedding.
    - A [std::string], and the bytes of a [char] buffer, are a [list ascii]:
      an [ascii] is one 8-bit [char].
    - A [size_t] is an [N] below [2^64]; subtraction wraps around
      ([size_sub]).  Positions inside a string are [nat]: they are bounded by
      the length of the string, and [std::string::max_size()] keeps
      [length + 1] below [2^64], so that arithmetic never wraps.
    - Undefined behaviour (an iterator moved past the end, a write outside a
      buffer, a read past the end of the source object) and a thrown
      exception are the result [None]. *)

From Stdlib Require Import ZArith NArith QArith Lqa Ascii String Bool Lia.
From stdpp Require Import base list.
From Equations Require Import Equations.

Local Open Scope nat_scope.
Local Open Scope list_scope.

(** ** Characters and strings *)

Abbreviation str := (list ascii).

(** A string literal of the source. *)
Definition lit (s : string) : str := list_ascii_of_string s.

(** ** [size_t] *)

Module SizeT.

Definition bits : N := 64.
Definition modulus : N := 2 ^ bits.

(** The value of type [size_t] an integer converts to. *)
Definition wrap (x : Z) : N := Z.to_N (x mod Z.of_N modulus).

(** [a - b] on [size_t]: modulo [2^64]. *)
Definition size_sub (a b : N) : N := wrap (Z.of_N a - Z.of_N b).

End SizeT.

(** ** [Utilities.h] *)

Module Utilities.

Import SizeT.

(** *** [strScpy]

    A [char*] is modelled by the bytes of the object it points into, from
    the pointer on.  [NUL] terminates a C string. *)
Definition NUL : ascii := Ascii.zero.

(** [strlen(p)]: the number of bytes before the first [NUL]; reading past the
    end of the object without meeting one is undefined. *)
Fixpoint strlen (p : list ascii) : option nat :=
  match p with
  | [] => None
  | c :: p' => if Ascii.eqb c NUL then Some 0 else S <$> strlen p'
  end.

(** The [n] bytes [strncpy] writes: the characters of [src] up to [n] of them,
    and, once the terminator of [src] was copied, [NUL]s up to [n] bytes in
    all.  [None] when [src] ends before either happens. *)
Fixpoint strncpy_bytes (src : list ascii) (n : nat) {struct n} :
    option (list ascii) :=
  match n with
  | 0 => Some []
  | S n' =>
      match src with
      | [] => None
      | c :: src' =>
          if Ascii.eqb c NUL then Some (replicate (S n') NUL)
          else (cons c) <$> strncpy_bytes src' n'
      end
  end.

(** [strncpy(dest, src, n)]: the bytes of [dest] afterwards.  Writing [n]
    bytes into a shorter object is undefined. *)
Definition strncpy (dest src : list ascii) (n : N) : option (list ascii) :=
  if (N.of_nat (length dest) <? n)%N then None
  else
    written ← strncpy_bytes src (N.to_nat n);
    Some (written ++ drop (N.to_nat n) dest).

(** [buf[i] = c] with [i] of type [size_t]; undefined outside the object. *)
Definition store (buf : list ascii) (i : N) (c : ascii) : option (list ascii) :=
  if (i <? N.of_nat (length buf))%N then Some (<[N.to_nat i := c]> buf) else None.

(** [strncpy(dest, src, size); dest[size - 1] = 0; return dest;] *)
Definition strScpy (dest src : list ascii) (size : N) : option (list ascii) :=
  d ← strncpy dest src size;
  store d (size_sub size 1) NUL.

(** *** [std::string::substr]

    [s.substr(pos, count)]: throws [std::out_of_range] when [pos] is
    past the end; otherwise the characters from [pos], at most [count] of
    them and at most to the end of [s]. *)
Definition substr (s : str) (pos count : N) : option str :=
  if (N.of_nat (length s) <? pos)%N then None
  else
    let rlen := N.min count (N.of_nat (length s) - pos) in
    Some (take (N.to_nat rlen) (drop (N.to_nat pos) s)).

(** *** [strAtMost]

    [return s.length() <= m ? s : s.substr(0, m - 3) + "...";]
    with [m - 3] computed on [size_t]. *)
Definition strAtMost (s : str) (m : N) : option str :=
  if (N.of_nat (length s) <=? m)%N then Some s
  else r ← substr s 0 (size_sub m 3); Some (r ++ lit "...").

(** *** [str_tolower], [str_toupper]

    [std::tolower] and [toupper] in the "C" locale, the locale a program
    starts in: the 26 letters of ASCII change case, every other value of
    [unsigned char] is returned as it is.  The [int] result is stored
    back into a [char]. *)
Definition tolower (c : ascii) : ascii :=
  let n := nat_of_ascii c in
  if (65 <=? n) && (n <=? 90) then ascii_of_nat (n + 32) else c.

Definition toupper (c : ascii) : ascii :=
  let n := nat_of_ascii c in
  if (97 <=? n) && (n <=? 122) then ascii_of_nat (n - 32) else c.

(** [std::transform(s.begin(), s.end(), s.begin(), f); return s;] *)
Definition transform (f : ascii -> ascii) (s : str) : str := map f s.

Definition str_tolower (s : str) : str := transform tolower s.
Definition str_toupper (s : str) : str := transform toupper s.

(** *** [tokenize] *)

(** Is [c] one of the characters of [delimiters]? *)
Definition is_delimiter (delimiters : str) (c : ascii) : bool :=
  existsb (Ascii.eqb c) delimiters.

(** The first position, counted from [i], of a delimiter in [rest]. *)
Fixpoint find_from (rest delimiters : str) (i : nat) : option nat :=
  match rest with
  | [] => None
  | c :: rest' =>
      if is_delimiter delimiters c then Some i
      else find_from rest' delimiters (S i)
  end.

(** [s.find_first_of(delimiters, pos)]; [None] is [std::string::npos]. *)
Definition find_first_of (s delimiters : str) (pos : nat) : option nat :=
  find_from (drop pos s) delimiters pos.

(** [pos = str.find_first_of(delimiters, lastPos);
     if (pos == std::string::npos) pos = length;] *)
Definition next_pos (s delimiters : str) (lastPos : nat) : nat :=
  match find_first_of s delimiters lastPos with
  | Some pos => pos
  | None => length s
  end.

Lemma find_from_bounds (rest delimiters : str) (i p : nat) :
  find_from rest delimiters i = Some p -> i <= p < i + length rest.
Proof.
  revert i. induction rest as [|c rest IH]; intros i; simpl; [discriminate|].
  destruct (is_delimiter delimiters c).
  - intros [= <-]. lia.
  - intros H. apply IH in H. lia.
Qed.

Lemma next_pos_bounds (s delimiters : str) (lastPos : nat) :
  lastPos <= length s ->
  lastPos <= next_pos s delimiters lastPos <= length s.
Proof.
  intros Hle. unfold next_pos, find_first_of.
  destruct (find_from _ _ _) as [p|] eqn:E; [|lia].
  apply find_from_bounds in E. rewrite length_drop in E. lia.
Qed.

(** [value_type(str.data() + lastPos, (size_type)pos - lastPos)] *)
Definition token_at (s : str) (lastPos pos : nat) : str :=
  take (pos - lastPos) (drop lastPos s).

(** The loop of [tokenize], from the state [(lastPos, tokens)]:
    [while (lastPos < length + 1) { ...; lastPos = pos + 1; }] *)
Equations? tokenize_loop (s delimiters : str) (trimEmpty : bool)
    (lastPos : nat) (tokens : list str) : list str
    by wf (length s + 1 - lastPos) lt :=
  tokenize_loop s delimiters trimEmpty lastPos tokens with
      lt_dec lastPos (length s + 1) => {
    | right _ => tokens
    | left _ =>
        let pos := next_pos s delimiters lastPos in
        let tokens' :=
          if negb (pos =? lastPos) || negb trimEmpty
          then tokens ++ [token_at s lastPos pos]
          else tokens in
        tokenize_loop s delimiters trimEmpty (pos + 1) tokens' }.
Proof.
  pose proof (next_pos_bounds s delimiters lastPos). lia.
Qed.

(** [tokenize(str, tokens, delimiters, trimEmpty)]: [tokens] afterwards. *)
Definition tokenize (s : str) (tokens : list str) (delimiters : str)
    (trimEmpty : bool) : list str :=
  tokenize_loop s delimiters trimEmpty 0 tokens.

(** *** [join]

    An iterator of [v] is the range from its position to [v.end()]: [++it]
    drops the head and is undefined at [v.end()]; [it != v.end() - 1] holds
    when an element follows the one at [it]. *)
Definition iter_next (it : list str) : option (list str) :=
  match it with
  | [] => None
  | _ :: it' => Some it'
  end.

(** [for (; it != end; ++it) { s += *it; if (it != v.end() - 1) s += c; }] *)
Fixpoint join_loop (it : list str) (c : ascii) (s : str) : str :=
  match it with
  | [] => s
  | x :: it' =>
      let s1 := s ++ x in
      let s2 := match it' with [] => s1 | _ :: _ => s1 ++ [c] end in
      join_loop it' c s2
  end.

(** [join(v, c, s)]: [s] afterwards. *)
Definition join (v : list str) (c : ascii) (s : str) : option str :=
  let s0 : str := [] in
  it1 ← iter_next v;
  it2 ← iter_next it1;
  Some (join_loop it2 c s0).

(** *** [begins_with]

    The template is modelled over the element type of the container. *)

Section BeginsWith.

Context {A : Type} `{EqDecision A}.

(** The element-wise comparison of [std::equal]. *)
Fixpoint equal_range (r1 r2 : list A) : bool :=
  match r1, r2 with
  | [], _ => true
  | _ :: _, [] => false
  | x :: r1', y :: r2' => bool_decide (x = y) && equal_range r1' r2'
  end.

(** [std::equal(first1, last1, first2)] on the range [r1] and the elements
    [r2] from [first2] on: the second range has to hold as many elements as
    the first, else the call is undefined. *)
Definition std_equal (r1 r2 : list A) : option bool :=
  if length r2 <? length r1 then None else Some (equal_range r1 r2).

(** [return input.size() >= match.size() &&
            std::equal(match.cbegin(), match.cend(), input.cbegin());]
    with the short-circuit of [&&]. *)
Definition begins_with (input match_ : list A) : option bool :=
  if length match_ <=? length input then std_equal match_ input
  else Some false.

End BeginsWith.

#[global] Instance ascii_eq_decision : EqDecision ascii := Ascii.ascii_dec.

(** *** [RemoveSystemPath] *)

(** [s.erase(index, count)]: throws [std::out_of_range] when [index] is past
    the end; otherwise removes the characters from [index], at most [count]
    of them and at most to the end of [s]. *)
Definition erase (s : str) (index count : N) : option str :=
  if (N.of_nat (length s) <? index)%N then None
  else
    let n := N.min count (N.of_nat (length s) - index) in
    Some (take (N.to_nat index) s ++ drop (N.to_nat (index + n)) s).

(** [if (begins_with<std::string>(path, GetXPlanePath()))
       path.erase(0, GetXPlanePath().length());
     return path;]
    [GetXPlanePath()] asks the simulator; what it answers is the argument
    [xplane_path]. *)
Definition RemoveSystemPath (xplane_path path : str) : option str :=
  b ← begins_with path xplane_path;
  if b : bool then erase path 0 (N.of_nat (length xplane_path))
  else Some path.

(** *** [Logger] *)

Inductive logLevel : Type :=
| logDEBUG
| logINFO
| logWARN
| logERROR
| logFATAL.

(** The value of an enumerator. *)
Definition level_value (level : logLevel) : nat :=
  match level with
  | logDEBUG => 0
  | logINFO => 1
  | logWARN => 2
  | logERROR => 3
  | logFATAL => 4
  end.

Definition LOG_LEVEL : list str :=
  [lit "[DEBUG]"; lit "[INFO]"; lit "[WARN]"; lit "[ERROR]"; lit "[FATAL]"].

(** [static char buf[2048]] *)
Definition LOG_BUF_SIZE : nat := 2048.

Definition newline : ascii := ascii_of_nat 10.
Definition space : ascii := ascii_of_nat 32.

(** The string [snprintf(p, n, ...)] and [vsnprintf(p, n, ...)] leave at
    [p], with [n >= 1], when the format and its arguments produce the text
    [out]: at most [n - 1] characters of it. *)
Definition snprintf_text (n : nat) (out : str) : str := take (n - 1) out.

(** [Logger(level, msg, args)]: the string left in [buf], which is what the
    function returns.
    - [clock] is the text that ["%u:%02u:%06.3f"] produces from the network
      time split into hours, minutes and seconds (floating point, not
      modelled); [plugin_name] is [PLUGIN_NAME], a constant of [Constants.h].
    - [body] is [None] when [args] is null, and else the text that [msg]
      produces with [args].
    - A string is the characters before its terminator.  [buf[length - 1]]
      with an empty string, and a store at index [2048], are undefined. *)

(** [snprintf(buf, sizeof(buf), "%u:%02u:%06.3f %s %s ", hours, mins, secs,
             PLUGIN_NAME, LOG_LEVEL[level]);] *)
Definition log_header (clock plugin_name : str) (level : logLevel) :
    option str :=
  tag ← LOG_LEVEL !! level_value level;
  Some (clock ++ [space] ++ plugin_name ++ [space] ++ tag ++ [space]).

(** [if (args) vsnprintf(&buf[strlen(buf)], sizeof(buf) - strlen(buf) - 1,
                         msg, args);]
    A size of 0 lets [vsnprintf] write nothing. *)
Definition log_body (buf : str) (body : option str) : str :=
  match body with
  | Some out =>
      let n := LOG_BUF_SIZE - length buf - 1 in
      if n =? 0 then buf else buf ++ snprintf_text n out
  | None => buf
  end.

(** [size_t length = strlen(buf);
     if (buf[length - 1] != '\n') { buf[length] = '\n'; buf[length + 1] = 0; }] *)
Definition log_end_line (buf : str) : option str :=
  let len := length buf in
  if len =? 0 then None
  else
    c ← buf !! (len - 1);
    if Ascii.eqb c newline then Some buf
    else if len + 1 <? LOG_BUF_SIZE then Some (buf ++ [newline])
    else None.

Definition Logger (clock plugin_name : str) (level : logLevel)
    (body : option str) : option str :=
  header ← log_header clock plugin_name level;
  let buf := snprintf_text LOG_BUF_SIZE header in
  log_end_line (log_body buf body).

End Utilities.

(** ** [NotificationPanel.h]

    The header declares the class, its data members, the default arguments
    of [AddNotificationPanelMessage] and the two inline accessors.  The
    bodies of the other member functions are in a translation unit that is
    not part of the sources at hand; they are modelled from the
    specification and marked as such. *)

Module NotificationPanel.

(** Modelled from the spec: the colour of a message, "(r,g,b)"; its
    declaration is not in the header.  The components are the [float]
    arguments of [AddNotificationPanelMessage]: the finite values of a
    [float] are rationals, and comparing and selecting among them, which is
    all the panel does with a component, is exact. *)
Record Color : Type := mkColor { red : Q; green : Q; blue : Q }.

(** Modelled from the spec: the message record [NotificationMessage], a text
    and a colour; its declaration is not in the header. *)
Record NotificationMessage : Type := mkMessage {
  text : str;
  color : Color
}.

(** Modelled from the spec: the fields [messages] (the ordered sequence of
    the specification's data model; the container is not declared in the
    header) and [visible] (the Hidden/Visible state of the specification's
    state machine, held by the window base class, whose header is missing).
    [mDisappearTime] (a [system_clock::time_point], here its tick count),
    [mScrollToBottom] and [mAlwaysVisible] are the data members of the
    header. *)
Record PanelState : Type := mkPanel {
  messages : list NotificationMessage;
  mDisappearTime : Z;
  mScrollToBottom : bool;
  mAlwaysVisible : bool;
  visible : bool
}.

(** [bool IsAlwaysVisible() const { return mAlwaysVisible; }] *)
Definition IsAlwaysVisible (st : PanelState) : bool := mAlwaysVisible st.

(** [void SetAlwaysVisible(bool visible) { mAlwaysVisible = visible; }] *)
Definition SetAlwaysVisible (v : bool) (st : PanelState) : PanelState :=
  mkPanel (messages st) (mDisappearTime st) (mScrollToBottom st) v (visible st).

(** The default arguments [float red = 255, float green = 255,
    float blue = 255] of [AddNotificationPanelMessage]. *)
Definition default_red : Q := 255.
Definition default_green : Q := 255.
Definition default_blue : Q := 255.

(** Modelled from the spec: the clamp of a colour component into [0,255]
    ("a malformed color value (out of [0,255]) is clamped, not rejected");
    the body of [AddNotificationPanelMessage] is missing. *)
Definition clamp_component (x : Q) : Q :=
  if Qlt_le_dec x 0 then 0
  else if Qlt_le_dec 255 x then 255
  else x.

(** Modelled from the spec: the colour stored for the arguments [r], [g],
    [b], each component clamped; part of the missing body of
    [AddNotificationPanelMessage]. *)
Definition clamp_color (r g b : Q) : Color :=
  mkColor (clamp_component r) (clamp_component g) (clamp_component b).

Section Panel.

(** The fixed capacity of the message sequence and the fixed display
    duration (in clock ticks): constants of the missing translation unit. *)
Variable capacity : nat.
Variable displayDuration : Z.

(** Modelled from the spec: the state the constructor leaves ("Initial
    state: Hidden", an empty sequence, not pinned); the constructor's body is
    missing.  The first deadline is not specified and is an argument. *)
Definition initial (deadline : Z) : PanelState :=
  mkPanel [] deadline false false false.

(** Modelled from the spec: "if the sequence exceeds a fixed capacity,
    evicts the oldest entry"; part of the missing body of
    [AddNotificationPanelMessage]. *)
Definition evict (msgs : list NotificationMessage) : list NotificationMessage :=
  if capacity <? length msgs then drop 1 msgs else msgs.

(** Modelled from the spec: [AddNotificationPanelMessage], whose body is
    missing, at the clock reading [now].  "Appends a message to the ordered
    sequence; if the sequence exceeds a fixed capacity, evicts the oldest
    entry.  Resets disappearDeadline to now + fixed display duration unless
    alwaysVisible is set.  Sets scrollToBottomPending = true."  The state
    machine has "Hidden→Visible on AddMessage". *)
Definition AddNotificationPanelMessage (now : Z) (message : str)
    (r g b : Q) (st : PanelState) : PanelState :=
  let m := mkMessage message (clamp_color r g b) in
  mkPanel
    (evict (messages st ++ [m]))
    (if mAlwaysVisible st then mDisappearTime st else (now + displayDuration)%Z)
    true
    (mAlwaysVisible st)
    true.

(** A call that leaves the colour arguments out takes the header's
    defaults. *)
Definition AddNotificationPanelMessage_default (now : Z) (message : str)
    (st : PanelState) : PanelState :=
  AddNotificationPanelMessage now message
    default_red default_green default_blue st.

(** Modelled from the spec: [Toggle], whose body is missing, at the clock
    reading [now].  "Flips alwaysVisible.  When turning it on, the panel
    becomes visible immediately and stays visible until toggled off.  When
    turning it off, visibility reverts to the deadline rule (may cause
    immediate hide if the deadline has already passed)." *)
Definition Toggle (now : Z) (st : PanelState) : PanelState :=
  let pinned := negb (mAlwaysVisible st) in
  mkPanel (messages st) (mDisappearTime st) (mScrollToBottom st) pinned
    (if pinned then true
     else if (mDisappearTime st <=? now)%Z then false
     else visible st).

(** Modelled from the spec: [onFlightLoop], whose body is missing, at the
    clock reading [now].  "If !alwaysVisible && nowSeconds >=
    disappearDeadline, the panel transitions to hidden." *)
Definition onFlightLoop (now : Z) (st : PanelState) : PanelState :=
  if negb (mAlwaysVisible st) && (mDisappearTime st <=? now)%Z
  then mkPanel (messages st) (mDisappearTime st) (mScrollToBottom st)
         (mAlwaysVisible st) false
  else st.

(** Modelled from the spec: the effect of [buildInterface], whose body is
    missing, on the state.  "If scrollToBottomPending, scrolls the view to
    the end and clears the flag." *)
Definition buildInterface (st : PanelState) : PanelState :=
  if mScrollToBottom st
  then mkPanel (messages st) (mDisappearTime st) false (mAlwaysVisible st)
         (visible st)
  else st.

(** The operations on a panel, as the events of a run, and one step. *)
Inductive operation : Type :=
| OpAddMessage (now : Z) (message : str) (r g b : Q)
| OpAddMessageDefault (now : Z) (message : str)
| OpToggle (now : Z)
| OpSetAlwaysVisible (v : bool)
| OpBuildInterface
| OpFlightLoop (now : Z).

Definition step (o : operation) (st : PanelState) : PanelState :=
  match o with
  | OpAddMessage now message r g b =>
      AddNotificationPanelMessage now message r g b st
  | OpAddMessageDefault now message =>
      AddNotificationPanelMessage_default now message st
  | OpToggle now => Toggle now st
  | OpSetAlwaysVisible v => SetAlwaysVisible v st
  | OpBuildInterface => buildInterface st
  | OpFlightLoop now => onFlightLoop now st
  end.


(** One call of [AddNotificationPanelMessage]: the clock reading and the
    arguments. *)
Record add_call : Type := mkCall {
  call_now : Z;
  call_message : str;
  call_red : Q;
  call_green : Q;
  call_blue : Q
}.

Definition do_call (st : PanelState) (c : add_call) : PanelState :=
  AddNotificationPanelMessage (call_now c) (call_message c)
    (call_red c) (call_green c) (call_blue c) st.

(** The message a call stores. *)
Definition stored (c : add_call) : NotificationMessage :=
  mkMessage (call_message c)
    (clamp_color (call_red c) (call_green c) (call_blue c)).

(** A sequence of calls, first to last. *)
Definition add_all (calls : list add_call) (st : PanelState) : PanelState :=
  fold_left do_call calls st.

End Panel.

End NotificationPanel.

(** ** Reference notions

    What the properties below are stated with: they are written from the
    words of the properties, not from the code. *)

Module Reference.

(** The elements of [l] with [c] between every adjacent pair. *)
Fixpoint interleave (c : ascii) (l : list str) : str :=
  match l with
  | [] => []
  | x :: l' =>
      match l' with
      | [] => x
      | _ :: _ => x ++ c :: interleave c l'
      end
  end.

(** The number of occurrences of [c] in [s]. *)
Fixpoint occurrences (c : ascii) (s : str) : nat :=
  match s with
  | [] => 0
  | x :: s' => (if Ascii.eqb x c then 1 else 0) + occurrences c s'
  end.

(** The last [n] elements of [l], in their order. *)
Definition last_n {A : Type} (n : nat) (l : list A) : list A :=
  drop (length l - n) l.

(** [y] is [x] clamped into [0,255]. *)
Definition clamped_to_byte_range (x y : Q) : Prop :=
  (0 <= y <= 255)%Q /\
  ((x < 0)%Q -> y = 0%Q) /\
  ((255 < x)%Q -> y = 255%Q) /\
  ((0 <= x <= 255)%Q -> y = x).

(** Is a token non-empty? *)
Definition nonempty (tok : str) : bool :=
  match tok with
  | [] => false
  | _ :: _ => true
  end.

(** The pieces of [s] between its delimiter characters, empty ones
    included: one more than there are delimiter characters. *)
Fixpoint pieces (delimiters : str) (s : str) : list str :=
  match s with
  | [] => [[]]
  | x :: s' =>
      if Utilities.is_delimiter delimiters x then [] :: pieces delimiters s'
      else
        match pieces delimiters s' with
        | p :: ps => (x :: p) :: ps
        | [] => [[x]]
        end
  end.

(** Is [c] one of the capital letters ['A'] to ['Z']? *)
Definition is_upper (c : ascii) : bool :=
  (65 <=? nat_of_ascii c) && (nat_of_ascii c <=? 90).

(** Is [c] one of the small letters ['a'] to ['z']? *)
Definition is_lower (c : ascii) : bool :=
  (97 <=? nat_of_ascii c) && (nat_of_ascii c <=? 122).

(** Does [s] end with a newline? *)
Definition ends_with_newline (s : str) : bool :=
  match last s with
  | Some c => Ascii.eqb c Utilities.newline
  | None => false
  end.

End Reference.

(** ** The scenario of the specification: four messages, capacity 3 *)

Module Scenario.

Import NotificationPanel.

Definition msgA : add_call := mkCall 10 (lit "A") 255 255 255.
Definition msgB : add_call := mkCall 11 (lit "B") 255 255 255.
Definition msgC : add_call := mkCall 12 (lit "C") 255 255 255.
Definition msgD : add_call := mkCall 13 (lit "D") 255 255 255.

End Scenario.

(** * Properties of the string utilities *)

(** [test_is t v]: the comparison [t] of the goal has the truth value [v],
    by linear arithmetic. *)
Ltac test_is t v :=
  replace t with v
    by (symmetry;
        first [ apply N.ltb_lt | apply N.ltb_ge | apply N.leb_le
              | apply N.leb_gt | apply Nat.ltb_lt | apply Nat.ltb_ge
              | apply Nat.leb_le | apply Nat.leb_gt ];
        unfold SizeT.modulus, SizeT.bits in *; lia).

(** The same for the test the goal branches on. *)
Ltac branch_is v :=
  match goal with
  | |- context [if ?t then _ else _] => test_is t v
  end.

Module SizeTFacts.

Import SizeT.

Lemma size_sub_ge (a b : N) :
  (b <= a)%N -> (a < modulus)%N -> size_sub a b = (a - b)%N.
Proof.
  intros Hba Ha. unfold size_sub, wrap.
  rewrite Z.mod_small; unfold modulus, bits in *; lia.
Qed.

Lemma size_sub_lt (a b : N) :
  (a < b)%N -> (b <= modulus)%N -> size_sub a b = (modulus + a - b)%N.
Proof.
  intros Hab Hb. unfold size_sub, wrap.
  replace (Z.of_N a - Z.of_N b)%Z
    with ((Z.of_N a - Z.of_N b + Z.of_N modulus) + (-1) * Z.of_N modulus)%Z by lia.
  rewrite Z.mod_add by (unfold modulus, bits; lia).
  rewrite Z.mod_small; unfold modulus, bits in *; lia.
Qed.

End SizeTFacts.

(** ** Case conversion *)

Module CaseFacts.

Import Utilities.

Example str_tolower_ex : str_tolower (lit "VATSIM-2b") = lit "vatsim-2b".
Proof. reflexivity. Qed.

Example str_toupper_ex : str_toupper (lit "xPilot {z}") = lit "XPILOT {Z}".
Proof. reflexivity. Qed.

(** A letter that was lowered is not an upper-case letter. *)
Lemma tolower_idem (c : ascii) : tolower (tolower c) = tolower c.
Proof.
  unfold tolower at 2 3.
  destruct ((65 <=? nat_of_ascii c) && (nat_of_ascii c <=? 90)) eqn:E.
  - apply andb_prop in E as [H1%Nat.leb_le H2%Nat.leb_le].
    unfold tolower. rewrite nat_ascii_embedding by lia.
    test_is (nat_of_ascii c + 32 <=? 90) false.
    now rewrite andb_false_r.
  - unfold tolower. now rewrite E.
Qed.

Lemma toupper_idem (c : ascii) : toupper (toupper c) = toupper c.
Proof.
  unfold toupper at 2 3.
  destruct ((97 <=? nat_of_ascii c) && (nat_of_ascii c <=? 122)) eqn:E.
  - apply andb_prop in E as [H1%Nat.leb_le H2%Nat.leb_le].
    unfold toupper. rewrite nat_ascii_embedding by lia.
    test_is (97 <=? nat_of_ascii c - 32) false.
    reflexivity.
  - unfold toupper. now rewrite E.
Qed.

Lemma transform_idem (f : ascii -> ascii) (s : str) :
  (forall c, f (f c) = f c) -> transform f (transform f s) = transform f s.
Proof.
  intros Hf. unfold transform. rewrite map_map.
  apply map_ext. exact Hf.
Qed.

(** C10. [str_tolower] and [str_toupper] are idempotent: converting an
    already converted string changes nothing. *)
Theorem str_case_idempotent (s : str) :
  str_tolower (str_tolower s) = str_tolower s /\
  str_toupper (str_toupper s) = str_toupper s.
Proof.
  split.
  - apply transform_idem, tolower_idem.
  - apply transform_idem, toupper_idem.
Qed.

End CaseFacts.

(** ** Truncation with an ellipsis *)

Module StrAtMostFacts.

Import SizeT SizeTFacts Utilities.

Example strAtMost_fits : strAtMost (lit "pilot") 8 = Some (lit "pilot").
Proof. reflexivity. Qed.

Example strAtMost_cut :
  strAtMost (lit "notification") 8 = Some (lit "notif...").
Proof. reflexivity. Qed.

(** [substr] from position 0 never throws. *)
Lemma substr_0 (s : str) (count : N) :
  substr s 0 count = Some (take (N.to_nat (N.min count (N.of_nat (length s)))) s).
Proof.
  unfold substr. test_is (N.of_nat (length s) <? 0)%N false.
  simpl. now rewrite N.sub_0_r.
Qed.

(** [strAtMost] returns a string for every argument. *)
Lemma strAtMost_total (s : str) (m : N) : is_Some (strAtMost s m).
Proof.
  unfold strAtMost. destruct (_ <=? _)%N; [eauto|].
  rewrite substr_0. simpl. eauto.
Qed.

(** A string that fits is returned as it is. *)
Lemma strAtMost_short (s : str) (m : N) :
  (N.of_nat (length s) <= m)%N -> strAtMost s m = Some s.
Proof.
  intros H. unfold strAtMost. now apply N.leb_le in H as ->.
Qed.

(** With a bound of at least 3, a longer string is cut to [m - 3]
    characters and the ellipsis. *)
Lemma strAtMost_long (s : str) (m : N) :
  (3 <= m)%N -> (m < modulus)%N -> (m < N.of_nat (length s))%N ->
  strAtMost s m = Some (take (N.to_nat (m - 3)) s ++ lit "...").
Proof.
  intros H3 Hm Hlen. unfold strAtMost.
  test_is (N.of_nat (length s) <=? m)%N false.
  rewrite substr_0, size_sub_ge by lia. simpl.
  now rewrite N.min_l by lia.
Qed.

(** For a bound [m] of at least 3, [strAtMost s m] is [s] when [s] has at
    most [m] characters, and otherwise the first [m - 3] characters of [s]
    followed by the ellipsis, [m] characters in all; the result is never
    longer than [m]. *)
Theorem strAtMost_bound_ge_3 (s : str) (m : N) :
  (3 <= m)%N -> (m < modulus)%N ->
  exists r : str,
    strAtMost s m = Some r /\
    ((N.of_nat (length s) <= m)%N -> r = s) /\
    ((m < N.of_nat (length s))%N ->
     r = take (N.to_nat (m - 3)) s ++ lit "..." /\ N.of_nat (length r) = m) /\
    (N.of_nat (length r) <= m)%N.
Proof.
  intros H3 Hm. destruct (N.le_gt_cases (N.of_nat (length s)) m) as [Hle|Hgt].
  - exists s. rewrite strAtMost_short by assumption.
    repeat split; try assumption; intros; lia.
  - exists (take (N.to_nat (m - 3)) s ++ lit "...").
    rewrite strAtMost_long by assumption.
    assert (Hlen : N.of_nat (length (take (N.to_nat (m - 3)) s ++ lit "...")) = m).
    { rewrite length_app, length_take. simpl. lia. }
    repeat split; try assumption; intros; lia.
Qed.

Lemma strAtMost_bound_ge_3_witness :
  exists r : str,
    strAtMost (lit "notification") 8 = Some r /\
    ((12 <= 8)%N -> r = lit "notification") /\
    ((8 < 12)%N -> r = lit "notif..." /\ N.of_nat (length r) = 8%N) /\
    (N.of_nat (length r) <= 8)%N.
Proof.
  apply (strAtMost_bound_ge_3 (lit "notification") 8);
    unfold modulus, bits; simpl; lia.
Defined.

(** With a bound below 3, [m - 3] wraps around to a count larger than any
    string, so [substr] returns all of [s]: a longer string comes back
    whole, followed by the ellipsis. *)
Lemma strAtMost_bound_lt_3 (s : str) (m : N) :
  (m < 3)%N -> (m < N.of_nat (length s))%N ->
  (N.of_nat (length s) < modulus - 3)%N ->
  strAtMost s m = Some (s ++ lit "...").
Proof.
  intros H3 Hlen Hs. unfold strAtMost.
  test_is (N.of_nat (length s) <=? m)%N false.
  rewrite substr_0, size_sub_lt by (unfold modulus, bits in *; lia).
  simpl. rewrite N.min_r by (unfold modulus, bits in *; lia).
  now rewrite Nat2N.id, firstn_all.
Qed.

(** C6. At [s = "abcd"], [m = 2] the result of [strAtMost] is ["abcd..."],
    seven characters: longer than the bound, and not [m - 3] characters of
    [s] followed by the ellipsis. *)
Theorem strAtMost_exceeds_small_bound :
  strAtMost (lit "abcd") 2 = Some (lit "abcd...") /\
  (2 < N.of_nat (length (lit "abcd...")))%N.
Proof.
  split; [reflexivity | simpl; lia].
Qed.

End StrAtMostFacts.

(** ** Joining *)

Module JoinFacts.

Import Utilities Reference.

Example join_ex :
  join [lit "PM"; lit "N123"; lit "hello"; lit "there"] " " (lit "old")
  = Some (lit "hello there").
Proof. reflexivity. Qed.

Lemma join_loop_interleave (it : list str) (c : ascii) (s : str) :
  join_loop it c s = s ++ interleave c it.
Proof.
  revert s. induction it as [|x it IH]; intros s; simpl.
  - now rewrite app_nil_r.
  - rewrite IH. destruct it as [|y it]; simpl.
    + now rewrite app_nil_r.
    + now rewrite <- !app_assoc.
Qed.

(** [join] is defined exactly on the vectors with two elements or more. *)
Lemma join_defined (v : list str) (c : ascii) (s : str) :
  is_Some (join v c s) <-> 2 <= length v.
Proof.
  destruct v as [|a [|b rest]]; simpl; split; intros H;
    try lia; try (destruct H; discriminate); eauto.
Qed.

(** C5, amended. For every vector [v] with at least two elements, [join]
    sets its output string, whatever it held before, to the elements
    [v[2]], ..., [v[n-1]] separated by [c]; [v[0]] and [v[1]] are left
    out. *)
Theorem join_skips_first_two (v : list str) (c : ascii) (s : str) :
  2 <= length v -> join v c s = Some (interleave c (drop 2 v)).
Proof.
  intros H. destruct v as [|a [|b rest]]; simpl in H; try lia.
  unfold join. simpl. now rewrite join_loop_interleave.
Qed.

Lemma join_skips_first_two_witness :
  join [lit "PM"; lit "N123"; lit "hello"; lit "there"] "," (lit "old")
  = Some (lit "hello,there").
Proof.
  apply (join_skips_first_two
           [lit "PM"; lit "N123"; lit "hello"; lit "there"] "," (lit "old")).
  simpl. lia.
Defined.

(** C5 as stated, for every vector, fails: on a vector of one element the
    second [++it] moves the iterator past [v.end()], and no output is
    defined. *)
Lemma join_short_vector_undefined :
  ~ (forall (v : list str) (c : ascii) (s : str),
       join v c s = Some (interleave c (drop 2 v))).
Proof.
  intros H. specialize (H [lit "PM"] ","%char []). discriminate H.
Qed.

End JoinFacts.

(** ** Tokenizing *)

Module TokenizeFacts.

Import Utilities Reference.

Example tokenize_keep_empty :
  tokenize (lit "a,b,,c,") [] (lit ",") false
  = [lit "a"; lit "b"; []; lit "c"; []].
Proof. reflexivity. Qed.

Example tokenize_trim_empty :
  tokenize (lit "a,b,,c,") [] (lit ",") true = [lit "a"; lit "b"; lit "c"].
Proof. reflexivity. Qed.

Example tokenize_appends :
  tokenize (lit "k=v") [lit "first"] (lit "=") false
  = [lit "first"; lit "k"; lit "v"].
Proof. reflexivity. Qed.

(** One turn of the loop. *)
Lemma tokenize_loop_turn (s delimiters : str) (trimEmpty : bool)
    (lastPos : nat) (tokens : list str) :
  tokenize_loop s delimiters trimEmpty lastPos tokens =
  if lastPos <? length s + 1 then
    let pos := next_pos s delimiters lastPos in
    tokenize_loop s delimiters trimEmpty (pos + 1)
      (if negb (pos =? lastPos) || negb trimEmpty
       then tokens ++ [token_at s lastPos pos] else tokens)
  else tokens.
Proof.
  rewrite tokenize_loop_equation_1 at 1.
  destruct (lt_dec lastPos (length s + 1)) as [Hlt|Hge]; simpl.
  - now apply Nat.ltb_lt in Hlt as ->.
  - now apply Nat.ltb_nlt in Hge as ->.
Qed.

Lemma is_delimiter_single (c x : ascii) :
  is_delimiter [c] x = Ascii.eqb x c.
Proof. unfold is_delimiter. simpl. apply orb_false_r. Qed.

Lemma occurrences_app (c : ascii) (s t : str) :
  occurrences c (s ++ t) = occurrences c s + occurrences c t.
Proof. induction s as [|x s IH]; simpl; [reflexivity | rewrite IH; lia]. Qed.

(** No delimiter found: there is none. *)
Lemma find_from_None (rest : str) (c : ascii) (i : nat) :
  find_from rest [c] i = None -> occurrences c rest = 0.
Proof.
  revert i. induction rest as [|x rest IH]; intros i;
    cbn [find_from occurrences]; [reflexivity|].
  rewrite is_delimiter_single. destruct (Ascii.eqb x c); [discriminate|].
  intros H. now rewrite (IH _ H).
Qed.

(** A delimiter found at [p]: it stands there, and none stands before. *)
Lemma find_from_Some (rest : str) (c : ascii) (i p : nat) :
  find_from rest [c] i = Some p ->
  rest = take (p - i) rest ++ c :: drop (S (p - i)) rest /\
  occurrences c (take (p - i) rest) = 0.
Proof.
  revert i. induction rest as [|x rest IH]; intros i;
    cbn [find_from]; [discriminate|].
  rewrite is_delimiter_single. destruct (Ascii.eqb x c) eqn:E.
  - intros [= <-]. apply Ascii.eqb_eq in E as ->.
    rewrite Nat.sub_diag. simpl. now rewrite drop_0.
  - intros H. pose proof (find_from_bounds _ _ _ _ H) as Hb.
    destruct (IH _ H) as [Hsplit Hocc].
    replace (p - i) with (S (p - S i)) by lia. simpl.
    rewrite E, Hocc. split; [now rewrite <- Hsplit | reflexivity].
Qed.

Lemma interleave_cons (c : ascii) (x : str) (l : list str) :
  0 < length l -> interleave c (x :: l) = x ++ c :: interleave c l.
Proof. destruct l; simpl; [lia | reflexivity]. Qed.

(** The loop from [lastPos], with one delimiter and empty tokens kept:
    it appends the pieces of the rest of [s] between the delimiters. *)
Lemma tokenize_loop_single (s : str) (c : ascii) (n : nat) :
  forall (lastPos : nat) (tokens : list str),
    length s - lastPos = n -> lastPos <= length s ->
    exists new : list str,
      tokenize_loop s [c] false lastPos tokens = tokens ++ new /\
      length new = occurrences c (drop lastPos s) + 1 /\
      interleave c new = drop lastPos s.
Proof.
  induction n as [n IH] using lt_wf_ind. intros lastPos tokens Hn Hle.
  rewrite tokenize_loop_turn.
  test_is (lastPos <? length s + 1) true.
  cbv zeta. rewrite orb_true_r.
  unfold next_pos, find_first_of, token_at.
  destruct (find_from (drop lastPos s) [c] lastPos) as [p|] eqn:E.
  - pose proof (find_from_bounds _ _ _ _ E) as Hb.
    rewrite length_drop in Hb.
    destruct (find_from_Some _ _ _ _ E) as [Hsplit Hocc].
    rewrite drop_drop in Hsplit.
    replace (lastPos + S (p - lastPos)) with (p + 1) in Hsplit by lia.
    destruct (IH (length s - (p + 1)) ltac:(lia) (p + 1)
                (tokens ++ [take (p - lastPos) (drop lastPos s)])
                eq_refl ltac:(lia)) as (new & Hloop & Hlen & Hcat).
    exists (take (p - lastPos) (drop lastPos s) :: new).
    split; [|split].
    + rewrite Hloop. now rewrite <- app_assoc.
    + rewrite Hsplit at 2. rewrite occurrences_app, Hocc. simpl.
      rewrite Ascii.eqb_refl, Hlen. lia.
    + rewrite interleave_cons, Hcat by lia. now rewrite <- Hsplit.
  - exists [drop lastPos s]. rewrite tokenize_loop_turn.
    test_is (length s + 1 <? length s + 1) false.
    rewrite (find_from_None _ _ _ E).
    rewrite take_ge by (rewrite length_drop; lia).
    auto.
Qed.

(** C8. With one delimiter character [c] and [trimEmpty = false],
    [tokenize] appends to [tokens] one token more than [c] occurs in [s],
    and these tokens with [c] between every adjacent pair are [s] again. *)
Theorem tokenize_single_delimiter_roundtrip
    (s : str) (c : ascii) (tokens : list str) :
  exists new : list str,
    tokenize s tokens [c] false = tokens ++ new /\
    length new = occurrences c s + 1 /\
    interleave c new = s.
Proof.
  destruct (tokenize_loop_single s c (length s - 0) 0 tokens eq_refl
              ltac:(lia)) as (new & Hloop & Hlen & Hcat).
  rewrite drop_0 in Hlen, Hcat. exists new. auto.
Qed.

(** The characters before the delimiter that was found are no
    delimiters; when none was found, no character is one. *)
Lemma find_from_clean (rest delimiters : str) (i : nat) :
  Forall (fun x => is_delimiter delimiters x = false)
    (match find_from rest delimiters i with
     | Some p => take (p - i) rest
     | None => rest
     end).
Proof.
  revert i. induction rest as [|x rest IH]; intros i; cbn [find_from].
  - constructor.
  - destruct (is_delimiter delimiters x) eqn:E.
    + rewrite Nat.sub_diag. constructor.
    + specialize (IH (S i)).
      destruct (find_from rest delimiters (S i)) as [p|] eqn:F.
      * pose proof (find_from_bounds _ _ _ _ F) as Hb.
        replace (p - i) with (S (p - S i)) by lia. simpl.
        now constructor.
      * now constructor.
Qed.

Lemma token_at_clean (s delimiters : str) (lastPos : nat) :
  lastPos <= length s ->
  Forall (fun x => is_delimiter delimiters x = false)
    (token_at s lastPos (next_pos s delimiters lastPos)).
Proof.
  intros Hle. pose proof (find_from_clean (drop lastPos s) delimiters lastPos) as H.
  unfold token_at, next_pos, find_first_of.
  destruct (find_from (drop lastPos s) delimiters lastPos); [exact H|].
  now rewrite take_ge by (rewrite length_drop; lia).
Qed.

Lemma tokenize_loop_clean (s delimiters : str) (trimEmpty : bool) (n : nat) :
  forall (lastPos : nat) (tokens : list str),
    length s + 1 - lastPos = n ->
    exists new : list str,
      tokenize_loop s delimiters trimEmpty lastPos tokens = tokens ++ new /\
      Forall (Forall (fun x => is_delimiter delimiters x = false)) new /\
      (trimEmpty = true -> Forall (fun tok => tok <> []) new).
Proof.
  induction n as [n IH] using lt_wf_ind. intros lastPos tokens Hn.
  rewrite tokenize_loop_turn.
  destruct (Nat.ltb_spec lastPos (length s + 1)) as [Hlt|Hge].
  - cbv zeta.
    pose proof (next_pos_bounds s delimiters lastPos ltac:(lia)) as Hb.
    pose proof (token_at_clean s delimiters lastPos ltac:(lia)) as Hclean.
    remember (next_pos s delimiters lastPos) as pos eqn:Epos.
    destruct (negb (pos =? lastPos) || negb trimEmpty) eqn:Epush.
    + destruct (IH (length s + 1 - (pos + 1)) ltac:(lia) (pos + 1)
                  (tokens ++ [token_at s lastPos pos]) eq_refl)
        as (new & Hloop & Hnew & Hne).
      exists (token_at s lastPos pos :: new). split; [|split].
      * rewrite Hloop. now rewrite <- app_assoc.
      * now constructor.
      * intros ->. constructor; [|now apply Hne].
        rewrite orb_false_r in Epush.
        apply negb_true_iff, Nat.eqb_neq in Epush.
        intros Hnil. apply (f_equal length) in Hnil.
        unfold token_at in Hnil.
        rewrite length_take, length_drop in Hnil. simpl in Hnil. lia.
    + apply (IH (length s + 1 - (pos + 1)) ltac:(lia) (pos + 1) tokens eq_refl).
  - exists []. rewrite app_nil_r. repeat split; constructor.
Qed.

(** Whatever the delimiters, no token that [tokenize] appends holds a
    delimiter character, and with [trimEmpty] set none of them is empty. *)
Theorem tokenize_tokens_clean
    (s : str) (tokens : list str) (delimiters : str) (trimEmpty : bool) :
  exists new : list str,
    tokenize s tokens delimiters trimEmpty = tokens ++ new /\
    Forall (Forall (fun x => is_delimiter delimiters x = false)) new /\
    (trimEmpty = true -> Forall (fun tok => tok <> []) new).
Proof.
  exact (tokenize_loop_clean s delimiters trimEmpty (length s + 1 - 0) 0
           tokens eq_refl).
Qed.

End TokenizeFacts.

(** ** Bounded copy *)

Module StrScpyFacts.

Import SizeT SizeTFacts Utilities.

Example strScpy_pads :
  strScpy (lit "XXXXXXXX") (lit "abc" ++ [NUL]) 6
  = Some (lit "abc" ++ [NUL; NUL; NUL] ++ lit "XX").
Proof. reflexivity. Qed.

Example strScpy_cuts :
  strScpy (lit "XXXXXXXX") (lit "abcdefghij" ++ [NUL]) 6
  = Some (lit "abcde" ++ [NUL] ++ lit "XX").
Proof. reflexivity. Qed.

(** With [size = 0] the store goes to index [2^64 - 1]. *)
Example strScpy_size_0 :
  strScpy (lit "XXXXXXXX") (lit "abc" ++ [NUL]) 0 = None.
Proof. reflexivity. Qed.

Lemma strlen_lt (p : list ascii) (k : nat) :
  strlen p = Some k -> k < length p.
Proof.
  revert k. induction p as [|c p IH]; intros k; simpl; [discriminate|].
  destruct (Ascii.eqb c NUL).
  - intros [= <-]. lia.
  - destruct (strlen p) as [k'|]; simpl; [|discriminate].
    intros [= <-]. specialize (IH k' eq_refl). lia.
Qed.

(** A prefix of a C string, closed by [NUL], is a C string of its length. *)
Lemma strlen_prefix (p : list ascii) (k j : nat) (rest : list ascii) :
  strlen p = Some k -> j <= k -> strlen (take j p ++ NUL :: rest) = Some j.
Proof.
  revert p k. induction j as [|j IH]; intros p k Hk Hj.
  - reflexivity.
  - destruct p as [|c p]; simpl in Hk; [discriminate|].
    simpl. destruct (Ascii.eqb c NUL).
    + injection Hk as <-. lia.
    + destruct (strlen p) as [k'|] eqn:E; simpl in Hk; [|discriminate].
      injection Hk as <-. now rewrite (IH p k' E) by lia.
Qed.

(** What [strncpy] writes from a C string of length [k]. *)
Lemma strncpy_bytes_spec (src : list ascii) (n k : nat) :
  strlen src = Some k ->
  strncpy_bytes src n = Some (take (min k n) src ++ replicate (n - k) NUL).
Proof.
  revert src k. induction n as [|n IH]; intros src k Hk.
  - rewrite Nat.min_0_r. reflexivity.
  - destruct src as [|c src]; simpl in Hk; [discriminate|].
    cbn [strncpy_bytes]. destruct (Ascii.eqb c NUL).
    + injection Hk as <-. reflexivity.
    + destruct (strlen src) as [k'|] eqn:E; simpl in Hk; [|discriminate].
      injection Hk as <-. rewrite (IH src k' E). reflexivity.
Qed.

(** The bytes of [dest] after [strScpy]: the first [min k (size - 1)]
    characters of the source, [NUL]s up to [size] bytes, and what [dest]
    held beyond them. *)
Lemma strScpy_result (dest src : list ascii) (size : N) (k : nat) :
  (1 <= size)%N -> (size < modulus)%N ->
  (size <= N.of_nat (length dest))%N ->
  strlen src = Some k ->
  strScpy dest src size =
  Some (take (min k (N.to_nat size - 1)) src
        ++ replicate (N.to_nat size - min k (N.to_nat size - 1)) NUL
        ++ drop (N.to_nat size) dest).
Proof.
  intros H1 Hmod Hdest Hk. pose proof (strlen_lt _ _ Hk) as Hsrc.
  unfold strScpy, strncpy.
  test_is (N.of_nat (length dest) <? size)%N false.
  rewrite (strncpy_bytes_spec _ _ k Hk). cbn [mbind option_bind].
  unfold store. rewrite size_sub_ge by lia.
  replace (N.to_nat (size - 1)) with (N.to_nat size - 1) by lia.
  remember (N.to_nat size) as n eqn:En.
  assert (Hn : 1 <= n <= length dest) by lia.
  assert (Hlen : length ((take (min k n) src ++ replicate (n - k) NUL)
                         ++ drop n dest) = length dest).
  { rewrite !length_app, length_take_le, length_replicate, length_drop; lia. }
  branch_is true.
  f_equal. destruct (le_lt_dec n k) as [Hge|Hlt].
  - rewrite (Nat.min_r k n), (Nat.min_r k (n - 1)) by lia.
    replace (n - k) with 0 by lia. replace (n - (n - 1)) with 1 by lia.
    simpl replicate. rewrite app_nil_r.
    destruct (lookup_lt_is_Some_2 src (n - 1) ltac:(lia)) as [x Hx].
    assert (Ht : take n src = take (n - 1) src ++ [x]).
    { replace n with (S (n - 1)) at 1 by lia. now apply take_S_r. }
    rewrite Ht, <- app_assoc.
    rewrite insert_app_r_alt by (rewrite length_take_le; lia).
    rewrite length_take_le by lia. now rewrite Nat.sub_diag.
  - rewrite (Nat.min_l k n), (Nat.min_l k (n - 1)) by lia.
    rewrite insert_app_l by (rewrite length_app, length_take_le, length_replicate; lia).
    rewrite insert_app_r_alt by (rewrite length_take_le; lia).
    now rewrite insert_replicate, <- app_assoc.
Qed.

(** C9. For a destination of at least [size >= 1] bytes and a source C
    string of length [k], [strScpy] leaves in [dest] a [NUL] at index
    [size - 1]; the C string [dest] then holds ends at index
    [min k (size - 1)] and is made of the first [min k (size - 1)]
    characters of the source. *)
Theorem strScpy_terminated_prefix
    (dest src : list ascii) (size : N) (k : nat) :
  (1 <= size)%N -> (size < modulus)%N ->
  (size <= N.of_nat (length dest))%N ->
  strlen src = Some k ->
  exists d : list ascii,
    strScpy dest src size = Some d /\
    length d = length dest /\
    d !! (N.to_nat size - 1) = Some NUL /\
    strlen d = Some (min k (N.to_nat size - 1)) /\
    take (min k (N.to_nat size - 1)) d = take (min k (N.to_nat size - 1)) src.
Proof.
  intros H1 Hmod Hdest Hk. pose proof (strlen_lt _ _ Hk) as Hsrc.
  rewrite (strScpy_result dest src size k H1 Hmod Hdest Hk).
  remember (N.to_nat size) as n eqn:En.
  remember (min k (n - 1)) as j eqn:Ej.
  assert (Hj : j <= k /\ j <= n - 1 /\ 1 <= n <= length dest) by lia.
  assert (Htake : length (take j src) = j) by (apply length_take_le; lia).
  eexists. split; [reflexivity|]. split; [|split; [|split]].
  - rewrite !length_app, Htake, length_replicate, length_drop. lia.
  - rewrite lookup_app_r by lia. rewrite Htake.
    rewrite lookup_app_l by (rewrite length_replicate; lia).
    apply lookup_replicate_2. lia.
  - replace (n - j) with (S (n - j - 1)) by lia. simpl replicate.
    now apply (strlen_prefix src k).
  - now apply take_app_length'.
Qed.

Lemma strScpy_terminated_prefix_witness :
  exists d : list ascii,
    strScpy (lit "XXXXXXXX") (lit "abcdefghij" ++ [NUL]) 6 = Some d /\
    length d = 8 /\
    d !! 5 = Some NUL /\
    strlen d = Some 5 /\
    take 5 d = lit "abcde".
Proof.
  apply (strScpy_terminated_prefix
           (lit "XXXXXXXX") (lit "abcdefghij" ++ [NUL]) 6 10);
    unfold modulus, bits; simpl; first [lia | reflexivity].
Defined.

(** With [size = 0] nothing is copied and the terminator is stored at index
    [2^64 - 1], outside of every buffer: the call has no defined result. *)
Theorem strScpy_size_0_undefined (dest src : list ascii) :
  (N.of_nat (length dest) < modulus)%N -> strScpy dest src 0 = None.
Proof.
  intros Hdest. unfold strScpy, strncpy. simpl.
  test_is (N.of_nat (length dest) <? 0)%N false.
  simpl. rewrite drop_0. unfold store.
  rewrite size_sub_lt by (unfold modulus, bits; lia).
  branch_is false. reflexivity.
Qed.

Lemma strScpy_size_0_undefined_witness :
  strScpy (lit "XXXXXXXX") (lit "abc" ++ [NUL]) 0 = None.
Proof.
  apply (strScpy_size_0_undefined (lit "XXXXXXXX") (lit "abc" ++ [NUL])).
  unfold modulus, bits. simpl. lia.
Defined.

End StrScpyFacts.

(** ** Prefixes and the system path *)

Module PathFacts.

Import Utilities.

Example begins_with_ex :
  begins_with (lit "/opt/xplane/Resources") (lit "/opt/xplane/") = Some true.
Proof. reflexivity. Qed.

Example RemoveSystemPath_ex :
  RemoveSystemPath (lit "/opt/xplane/") (lit "/opt/xplane/Resources/plugins")
  = Some (lit "Resources/plugins").
Proof. reflexivity. Qed.

Section Generic.

Context {A : Type} `{EqDecision A}.

Lemma equal_range_true (r1 r2 : list A) :
  equal_range r1 r2 = true <-> exists rest, r2 = r1 ++ rest.
Proof.
  revert r2. induction r1 as [|x r1 IH]; intros r2.
  - simpl. split; [intros _; now exists r2 | reflexivity].
  - destruct r2 as [|y r2]; simpl.
    + split; [discriminate | intros [rest Hrest]; discriminate Hrest].
    + rewrite andb_true_iff, bool_decide_eq_true, IH. split.
      * intros [-> [rest ->]]. now exists rest.
      * intros [rest [= -> ->]]. split; [reflexivity | now exists rest].
Qed.

(** The size test keeps [std::equal] inside [input]: [begins_with] has a
    result for all arguments, and the result is [true] exactly on the
    inputs that start with [match_]. *)
Lemma begins_with_decides (input match_ : list A) :
  exists b : bool,
    begins_with input match_ = Some b /\
    (b = true <-> exists rest, input = match_ ++ rest).
Proof.
  unfold begins_with, std_equal.
  destruct (Nat.leb_spec (length match_) (length input)) as [Hle|Hgt].
  - test_is (length input <? length match_) false.
    eexists. split; [reflexivity | apply equal_range_true].
  - exists false. split; [reflexivity|]. split; [discriminate|].
    intros [rest ->]. rewrite length_app in Hgt. lia.
Qed.

End Generic.

(** [begins_with(input, match)] is defined for all containers, and is true
    exactly when [input] is [match] followed by some rest; in particular it
    is false, without reading past the end, when [input] is the shorter. *)
Theorem begins_with_iff_prefix
    {A : Type} `{EqDecision A} (input match_ : list A) :
  exists b : bool,
    begins_with input match_ = Some b /\
    (b = true <-> exists rest, input = match_ ++ rest) /\
    (length input < length match_ -> b = false).
Proof.
  destruct (begins_with_decides input match_) as (b & Hb & Hiff).
  exists b. split; [assumption | split; [assumption|]].
  intros Hlt. destruct b; [|reflexivity].
  destruct (proj1 Hiff eq_refl) as [rest ->].
  rewrite length_app in Hlt. lia.
Qed.

Lemma erase_front (s : str) (count : nat) :
  erase s 0 (N.of_nat count) = Some (drop (min count (length s)) s).
Proof.
  unfold erase. test_is (N.of_nat (length s) <? 0)%N false.
  simpl. rewrite N.sub_0_r. f_equal. f_equal. lia.
Qed.

(** [RemoveSystemPath] turns a path below the system path into the path
    relative to it, and returns every other path as it is. *)
Theorem RemoveSystemPath_relative (xplane_path path : str) :
  (forall rel : str,
     path = xplane_path ++ rel ->
     RemoveSystemPath xplane_path path = Some rel) /\
  ((forall rel : str, path <> xplane_path ++ rel) ->
   RemoveSystemPath xplane_path path = Some path).
Proof.
  unfold RemoveSystemPath.
  destruct (begins_with_decides path xplane_path) as (b & -> & Hiff).
  cbn [mbind option_bind]. split.
  - intros rel ->. replace b with true
      by (symmetry; apply Hiff; now exists rel).
    rewrite erase_front, length_app.
    rewrite Nat.min_l by lia. now rewrite drop_app_length.
  - intros Hno. destruct b; [|reflexivity].
    destruct (proj1 Hiff eq_refl) as [rel Hrel]. now destruct (Hno rel).
Qed.

Lemma RemoveSystemPath_relative_witness :
  RemoveSystemPath (lit "/opt/xplane/") (lit "/opt/xplane/Resources/plugins")
  = Some (lit "Resources/plugins") /\
  RemoveSystemPath (lit "/opt/xplane/") (lit "/home/pilot/log.txt")
  = Some (lit "/home/pilot/log.txt").
Proof.
  split.
  - apply (proj1 (RemoveSystemPath_relative (lit "/opt/xplane/")
                    (lit "/opt/xplane/Resources/plugins"))).
    reflexivity.
  - apply (proj2 (RemoveSystemPath_relative (lit "/opt/xplane/")
                    (lit "/home/pilot/log.txt"))).
    intros rel Hrel. discriminate Hrel.
Defined.

(** Removing the system path once does not mean that none is left: a path
    that repeats the system path keeps the second copy, so that
    [RemoveSystemPath] is not idempotent. *)
Example RemoveSystemPath_not_idempotent :
  RemoveSystemPath (lit "/x/") (lit "/x//x/a") = Some (lit "/x/a") /\
  RemoveSystemPath (lit "/x/") (lit "/x/a") = Some (lit "a").
Proof. split; reflexivity. Qed.

End PathFacts.

(** ** Case conversion, continued *)

Module CaseNormalFacts.

Import Utilities Reference.

Lemma tolower_toupper (c : ascii) : tolower (toupper c) = tolower c.
Proof.
  unfold toupper.
  destruct ((97 <=? nat_of_ascii c) && (nat_of_ascii c <=? 122)) eqn:E;
    [|reflexivity].
  apply andb_prop in E as [H1%Nat.leb_le H2%Nat.leb_le].
  unfold tolower. rewrite nat_ascii_embedding by lia.
  test_is (65 <=? nat_of_ascii c - 32) true.
  test_is (nat_of_ascii c - 32 <=? 90) true.
  test_is (nat_of_ascii c <=? 90) false.
  rewrite andb_false_r. simpl.
  replace (nat_of_ascii c - 32 + 32) with (nat_of_ascii c) by lia.
  apply ascii_nat_embedding.
Qed.

Lemma toupper_tolower (c : ascii) : toupper (tolower c) = toupper c.
Proof.
  unfold tolower.
  destruct ((65 <=? nat_of_ascii c) && (nat_of_ascii c <=? 90)) eqn:E;
    [|reflexivity].
  apply andb_prop in E as [H1%Nat.leb_le H2%Nat.leb_le].
  unfold toupper. rewrite nat_ascii_embedding by lia.
  test_is (97 <=? nat_of_ascii c + 32) true.
  test_is (nat_of_ascii c + 32 <=? 122) true.
  test_is (97 <=? nat_of_ascii c) false.
  simpl.
  replace (nat_of_ascii c + 32 - 32) with (nat_of_ascii c) by lia.
  apply ascii_nat_embedding.
Qed.

Lemma tolower_not_upper (c : ascii) : is_upper (tolower c) = false.
Proof.
  unfold tolower, is_upper.
  destruct ((65 <=? nat_of_ascii c) && (nat_of_ascii c <=? 90)) eqn:E;
    [|exact E].
  apply andb_prop in E as [H1%Nat.leb_le H2%Nat.leb_le].
  rewrite nat_ascii_embedding by lia.
  test_is (nat_of_ascii c + 32 <=? 90) false. apply andb_false_r.
Qed.

Lemma toupper_not_lower (c : ascii) : is_lower (toupper c) = false.
Proof.
  unfold toupper, is_lower.
  destruct ((97 <=? nat_of_ascii c) && (nat_of_ascii c <=? 122)) eqn:E;
    [|exact E].
  apply andb_prop in E as [H1%Nat.leb_le H2%Nat.leb_le].
  rewrite nat_ascii_embedding by lia.
  test_is (97 <=? nat_of_ascii c - 32) false. reflexivity.
Qed.

(** Lowering after raising is lowering, and raising after lowering is
    raising: the two conversions agree on which strings they identify. *)
Theorem str_case_absorbs (s : str) :
  str_tolower (str_toupper s) = str_tolower s /\
  str_toupper (str_tolower s) = str_toupper s.
Proof.
  unfold str_tolower, str_toupper, transform. rewrite !map_map.
  split; apply map_ext; [apply tolower_toupper | apply toupper_tolower].
Qed.

(** [str_tolower] keeps the length, leaves no capital letter, and returns a
    string without capital letters as it is; [str_toupper] does the same
    with the small letters. *)
Theorem str_case_normal_form (s : str) :
  (length (str_tolower s) = length s /\
   Forall (fun c => is_upper c = false) (str_tolower s) /\
   (Forall (fun c => is_upper c = false) s -> str_tolower s = s)) /\
  (length (str_toupper s) = length s /\
   Forall (fun c => is_lower c = false) (str_toupper s) /\
   (Forall (fun c => is_lower c = false) s -> str_toupper s = s)).
Proof.
  unfold str_tolower, str_toupper, transform.
  split; (split; [apply length_map | split]).
  - apply List.Forall_forall. intros c [x [<- _]]%in_map_iff.
    apply tolower_not_upper.
  - induction 1 as [|c s' Hc _ IH]; simpl; [reflexivity|].
    rewrite IH. f_equal. unfold tolower. unfold is_upper in Hc.
    now rewrite Hc.
  - apply List.Forall_forall. intros c [x [<- _]]%in_map_iff.
    apply toupper_not_lower.
  - induction 1 as [|c s' Hc _ IH]; simpl; [reflexivity|].
    rewrite IH. f_equal. unfold toupper. unfold is_lower in Hc.
    now rewrite Hc.
Qed.

End CaseNormalFacts.

(** ** Tokenizing against the reference splitter *)

Module TokenizePiecesFacts.

Import Utilities Reference TokenizeFacts.

Example pieces_ex :
  pieces (lit ", ") (lit "a, b,c ") = [lit "a"; []; lit "b"; lit "c"; []].
Proof. reflexivity. Qed.

(** What [tokenize] keeps of the pieces. *)
Definition kept (trimEmpty : bool) (l : list str) : list str :=
  if trimEmpty then List.filter nonempty l else l.

Lemma pieces_length (delimiters s : str) :
  length (pieces delimiters s)
  = length (List.filter (is_delimiter delimiters) s) + 1.
Proof.
  induction s as [|x s IH]; [reflexivity|].
  cbn [pieces List.filter]. destruct (is_delimiter delimiters x); simpl.
  - now rewrite IH.
  - destruct (pieces delimiters s); simpl in *; lia.
Qed.

Lemma pieces_concat (delimiters s : str) :
  List.concat (pieces delimiters s)
  = List.filter (fun x => negb (is_delimiter delimiters x)) s.
Proof.
  induction s as [|x s IH]; [reflexivity|].
  cbn [pieces List.filter]. destruct (is_delimiter delimiters x); simpl.
  - exact IH.
  - rewrite <- IH. pose proof (pieces_length delimiters s) as Hlen.
    destruct (pieces delimiters s); simpl in *; [lia | reflexivity].
Qed.

Lemma concat_nonempty (l : list str) :
  List.concat (List.filter nonempty l) = List.concat l.
Proof.
  induction l as [|tok l IH]; [reflexivity|].
  destruct tok; simpl; [exact IH | now rewrite IH].
Qed.

(** With no delimiter in [rest], [rest] is the one piece. *)
Lemma pieces_find_None (rest delimiters : str) (i : nat) :
  find_from rest delimiters i = None -> pieces delimiters rest = [rest].
Proof.
  revert i. induction rest as [|x rest IH]; intros i;
    cbn [find_from pieces]; [reflexivity|].
  destruct (is_delimiter delimiters x); [discriminate|].
  intros H. now rewrite (IH _ H).
Qed.

(** With the first delimiter at [p], the first piece ends there and the
    others are the pieces of what follows the delimiter. *)
Lemma pieces_find_Some (rest delimiters : str) (i p : nat) :
  find_from rest delimiters i = Some p ->
  pieces delimiters rest
  = take (p - i) rest :: pieces delimiters (drop (S (p - i)) rest).
Proof.
  revert i. induction rest as [|x rest IH]; intros i;
    cbn [find_from pieces]; [discriminate|].
  destruct (is_delimiter delimiters x).
  - intros [= <-]. rewrite Nat.sub_diag. simpl. now rewrite drop_0.
  - intros H. pose proof (find_from_bounds _ _ _ _ H) as Hb.
    rewrite (IH _ H). replace (p - i) with (S (p - S i)) by lia.
    reflexivity.
Qed.

Lemma nonempty_length (tok : str) : nonempty tok = negb (length tok =? 0).
Proof. now destruct tok. Qed.

(** The loop from [lastPos] appends the pieces of the rest of [s], all of
    them or the non-empty ones. *)
Lemma tokenize_loop_pieces (s delimiters : str) (trimEmpty : bool) (n : nat) :
  forall (lastPos : nat) (tokens : list str),
    length s - lastPos = n -> lastPos <= length s ->
    tokenize_loop s delimiters trimEmpty lastPos tokens
    = tokens ++ kept trimEmpty (pieces delimiters (drop lastPos s)).
Proof.
  induction n as [n IH] using lt_wf_ind. intros lastPos tokens Hn Hle.
  rewrite tokenize_loop_turn.
  test_is (lastPos <? length s + 1) true.
  cbv zeta. unfold next_pos, find_first_of, token_at.
  destruct (find_from (drop lastPos s) delimiters lastPos) as [p|] eqn:E.
  - pose proof (find_from_bounds _ _ _ _ E) as Hb.
    rewrite length_drop in Hb.
    rewrite (pieces_find_Some _ _ _ _ E), drop_drop.
    replace (lastPos + S (p - lastPos)) with (p + 1) by lia.
    assert (Htok : nonempty (take (p - lastPos) (drop lastPos s))
                   = negb (p =? lastPos)).
    { rewrite nonempty_length, length_take, length_drop. f_equal.
      destruct (Nat.eqb_spec p lastPos);
        [apply Nat.eqb_eq | apply Nat.eqb_neq]; lia. }
    rewrite (IH (length s - (p + 1)) ltac:(lia) (p + 1) _ eq_refl ltac:(lia)).
    unfold kept. destruct trimEmpty; simpl.
    + rewrite Htok, orb_false_r.
      destruct (negb (p =? lastPos)); [now rewrite <- app_assoc | reflexivity].
    + rewrite orb_true_r. now rewrite <- app_assoc.
  - rewrite (pieces_find_None _ _ _ E).
    rewrite take_ge by (rewrite length_drop; lia).
    rewrite tokenize_loop_turn.
    test_is (length s + 1 <? length s + 1) false.
    assert (Htok : nonempty (drop lastPos s) = negb (length s =? lastPos)).
    { rewrite nonempty_length, length_drop. f_equal.
      destruct (Nat.eqb_spec (length s) lastPos);
        [apply Nat.eqb_eq | apply Nat.eqb_neq]; lia. }
    unfold kept. destruct trimEmpty; simpl.
    + rewrite Htok, orb_false_r.
      destruct (negb (length s =? lastPos)); [reflexivity|].
      now rewrite app_nil_r.
    + now rewrite orb_true_r.
Qed.

Lemma tokenize_pieces (s : str) (tokens : list str) (delimiters : str)
    (trimEmpty : bool) :
  tokenize s tokens delimiters trimEmpty
  = tokens ++ kept trimEmpty (pieces delimiters s).
Proof.
  unfold tokenize.
  rewrite (tokenize_loop_pieces s delimiters trimEmpty (length s - 0) 0
             tokens eq_refl ltac:(lia)).
  now rewrite drop_0.
Qed.

(** For every set of delimiters, the tokens [tokenize] appends, put end to
    end, are [s] without its delimiter characters; with [trimEmpty = false]
    there is one token more than [s] has delimiter characters. *)
Theorem tokenize_concat_and_count
    (s : str) (tokens : list str) (delimiters : str) (trimEmpty : bool) :
  exists new : list str,
    tokenize s tokens delimiters trimEmpty = tokens ++ new /\
    List.concat new
    = List.filter (fun x => negb (is_delimiter delimiters x)) s /\
    (trimEmpty = false ->
     length new = length (List.filter (is_delimiter delimiters) s) + 1).
Proof.
  exists (kept trimEmpty (pieces delimiters s)).
  split; [apply tokenize_pieces | split].
  - unfold kept. destruct trimEmpty;
      [rewrite concat_nonempty|]; apply pieces_concat.
  - intros ->. apply pieces_length.
Qed.

(** With [trimEmpty = true], [tokenize] appends the tokens it appends with
    [trimEmpty = false], the empty ones left out, in the same order. *)
Theorem tokenize_trim_filters
    (s : str) (tokens : list str) (delimiters : str) :
  exists new : list str,
    tokenize s tokens delimiters false = tokens ++ new /\
    tokenize s tokens delimiters true = tokens ++ List.filter nonempty new.
Proof.
  exists (pieces delimiters s). split; apply tokenize_pieces.
Qed.

End TokenizePiecesFacts.

(** ** Tokenizing, then joining *)

Module JoinTokenizeFacts.

Import Utilities Reference JoinFacts TokenizeFacts.

(** A line tokenized at [c] into three tokens or more, and joined with [c]:
    [join] gives back what follows the second [c] of the line. *)
Theorem join_after_tokenize
    (s : str) (c : ascii) (s0 t0 t1 t2 : str) (rest : list str) :
  tokenize s [] [c] false = t0 :: t1 :: t2 :: rest ->
  exists out : str,
    join (tokenize s [] [c] false) c s0 = Some out /\
    s = t0 ++ [c] ++ t1 ++ [c] ++ out.
Proof.
  intros Htok.
  destruct (tokenize_loop_single s c (length s - 0) 0 [] eq_refl ltac:(lia))
    as (new & Hloop & _ & Hcat).
  rewrite drop_0 in Hcat. unfold tokenize in Htok.
  rewrite Hloop in Htok. simpl in Htok. subst new.
  unfold tokenize. rewrite Hloop. cbn [app].
  exists (interleave c (t2 :: rest)). split.
  - unfold join. cbn [iter_next mbind option_bind].
    now rewrite join_loop_interleave.
  - rewrite <- Hcat. reflexivity.
Qed.

Lemma join_after_tokenize_witness :
  exists out : str,
    join (tokenize (lit "PM N123 hello there") [] [space] false) space []
    = Some out /\
    lit "PM N123 hello there"
    = lit "PM" ++ [space] ++ lit "N123" ++ [space] ++ out.
Proof.
  apply (join_after_tokenize (lit "PM N123 hello there") space []
           (lit "PM") (lit "N123") (lit "hello") [lit "there"]).
  reflexivity.
Defined.

End JoinTokenizeFacts.

(** ** Bounded copy and truncation, continued *)

Module BufferFacts.

Import SizeT SizeTFacts Utilities StrAtMostFacts StrScpyFacts.

(** [strScpy] writes [size] bytes and no more: the bytes of [dest] from
    index [size] on are the ones it held, and the bytes from the end of the
    copied string up to index [size - 1] are all [NUL]. *)
Theorem strScpy_frame_and_padding
    (dest src : list ascii) (size : N) (k : nat) :
  (1 <= size)%N -> (size < modulus)%N ->
  (size <= N.of_nat (length dest))%N ->
  strlen src = Some k ->
  exists d : list ascii,
    strScpy dest src size = Some d /\
    (forall i : nat, N.to_nat size <= i -> d !! i = dest !! i) /\
    (forall i : nat,
       min k (N.to_nat size - 1) <= i < N.to_nat size -> d !! i = Some NUL).
Proof.
  intros H1 Hmod Hdest Hk. pose proof (strlen_lt _ _ Hk) as Hsrc.
  rewrite (strScpy_result dest src size k H1 Hmod Hdest Hk).
  remember (N.to_nat size) as n eqn:En.
  remember (min k (n - 1)) as j eqn:Ej.
  assert (Hj : j <= k /\ j <= n - 1 /\ 1 <= n <= length dest) by lia.
  assert (Htake : length (take j src) = j) by (apply length_take_le; lia).
  eexists. split; [reflexivity | split]; intros i Hi.
  - rewrite lookup_app_r by lia. rewrite Htake.
    rewrite lookup_app_r by (rewrite length_replicate; lia).
    rewrite length_replicate, lookup_drop. f_equal. lia.
  - rewrite lookup_app_r by lia. rewrite Htake.
    rewrite lookup_app_l by (rewrite length_replicate; lia).
    apply lookup_replicate_2. lia.
Qed.

Lemma strScpy_frame_and_padding_witness :
  exists d : list ascii,
    strScpy (lit "XXXXXXXX") (lit "abc" ++ [NUL]) 6 = Some d /\
    (forall i : nat, 6 <= i -> d !! i = lit "XXXXXXXX" !! i) /\
    (forall i : nat, 3 <= i < 6 -> d !! i = Some NUL).
Proof.
  apply (strScpy_frame_and_padding
           (lit "XXXXXXXX") (lit "abc" ++ [NUL]) 6 3);
    unfold modulus, bits; simpl; first [lia | reflexivity].
Defined.

(** With a bound below 3, [strAtMost] lengthens every string longer than
    the bound: [m - 3] wraps around, [substr] returns all of [s], and the
    ellipsis is put after it. *)
Theorem strAtMost_small_bound_appends (s : str) (m : N) :
  (m < 3)%N -> (m < N.of_nat (length s))%N ->
  (N.of_nat (length s) < modulus - 3)%N ->
  strAtMost s m = Some (s ++ lit "...") /\
  length (s ++ lit "...") = length s + 3.
Proof.
  intros H3 Hlen Hs. split.
  - now apply strAtMost_bound_lt_3.
  - now rewrite length_app.
Qed.

Lemma strAtMost_small_bound_appends_witness :
  strAtMost (lit "ab") 1 = Some (lit "ab...") /\
  length (lit "ab...") = 5.
Proof.
  apply (strAtMost_small_bound_appends (lit "ab") 1);
    unfold modulus, bits; simpl; lia.
Defined.

End BufferFacts.

(** ** The log line *)

Module LoggerFacts.

Import Utilities Reference.

Example Logger_with_body :
  Logger (lit "0:01:02.500") (lit "xPilot") logINFO (Some (lit "connected"))
  = Some (lit "0:01:02.500 xPilot [INFO] connected" ++ [newline]).
Proof. reflexivity. Qed.

Example Logger_without_args :
  Logger (lit "0:01:02.500") (lit "xPilot") logWARN None
  = Some (lit "0:01:02.500 xPilot [WARN] " ++ [newline]).
Proof. reflexivity. Qed.

Lemma LOG_BUF_SIZE_eq : LOG_BUF_SIZE = 2048.
Proof. reflexivity. Qed.

(** Every level has its tag, of seven characters at most. *)
Lemma level_tag (level : logLevel) :
  exists tag : str,
    LOG_LEVEL !! level_value level = Some tag /\ length tag <= 7.
Proof.
  destruct level; eexists; (split; [reflexivity | simpl; lia]).
Qed.

Lemma last_newline (s : str) :
  ends_with_newline s = true -> last s = Some newline.
Proof.
  unfold ends_with_newline. destruct (last s) as [c|]; [|discriminate].
  now intros ->%Ascii.eqb_eq.
Qed.

(** A string that is not empty and leaves room for two bytes gets its
    newline, if it has none. *)
Lemma log_end_line_fits (buf : str) :
  0 < length buf -> length buf + 1 < LOG_BUF_SIZE ->
  log_end_line buf
  = Some (if ends_with_newline buf then buf else buf ++ [newline]).
Proof.
  intros Hpos Hfit. unfold log_end_line, ends_with_newline.
  replace (length buf =? 0) with false by (symmetry; apply Nat.eqb_neq; lia).
  rewrite last_lookup. replace (pred (length buf)) with (length buf - 1) by lia.
  destruct (buf !! (length buf - 1)) as [c|] eqn:E; cbn [mbind option_bind].
  - destruct (Ascii.eqb c newline); [reflexivity|].
    now test_is (length buf + 1 <? LOG_BUF_SIZE) true.
  - apply lookup_ge_None in E. lia.
Qed.

Lemma ends_with_newline_app (s out : str) :
  0 < length out -> ends_with_newline (s ++ out) = ends_with_newline out.
Proof.
  intros Hout. unfold ends_with_newline.
  destruct out as [|c out] using rev_ind; [simpl in Hout; lia|].
  now rewrite app_assoc, !last_snoc.
Qed.

(** With a header that leaves room in the buffer (the clock text and the
    plugin name take 2036 characters at most), [Logger] returns a line that
    starts with the header, ends with a newline and fits the buffer with
    its terminator.  Without arguments the line is the header and a
    newline; with arguments whose text fits, it is the header, the text, and
    a newline unless the text ends with one. *)
Theorem Logger_line
    (clock plugin_name : str) (level : logLevel) (body : option str) :
  length clock + length plugin_name + 12 <= LOG_BUF_SIZE ->
  exists header line : str,
    log_header clock plugin_name level = Some header /\
    Logger clock plugin_name level body = Some line /\
    (exists rest, line = header ++ rest) /\
    last line = Some newline /\
    length line < LOG_BUF_SIZE /\
    match body with
    | None => line = header ++ [newline]
    | Some out =>
        length header + length out + 2 <= LOG_BUF_SIZE ->
        line = header ++ out
               ++ (if ends_with_newline out then [] else [newline])
    end.
Proof.
  intros Hroom. pose proof LOG_BUF_SIZE_eq as HB.
  destruct (level_tag level) as (tag & Htag & Hlen).
  unfold Logger, log_header. rewrite Htag. cbn [mbind option_bind].
  set (header := clock ++ [space] ++ plugin_name ++ [space] ++ tag ++ [space]).
  assert (Hh : length header = length clock + length plugin_name + length tag + 3).
  { unfold header. rewrite !length_app. simpl. lia. }
  assert (Hend : ends_with_newline header = false).
  { unfold header. rewrite !app_assoc. unfold ends_with_newline.
    now rewrite last_snoc. }
  unfold snprintf_text at 1. rewrite take_ge by lia.
  exists header. 
  assert (Hfin : forall buf : str,
            (exists rest, buf = header ++ rest) ->
            length buf + 1 < LOG_BUF_SIZE ->
            exists line : str,
              log_end_line buf = Some line /\
              (exists rest, line = header ++ rest) /\
              last line = Some newline /\
              length line < LOG_BUF_SIZE /\
              line = buf ++ (if ends_with_newline buf then [] else [newline])).
  { intros buf [rest ->] Hfit.
    rewrite log_end_line_fits by (rewrite ?length_app in *; lia).
    destruct (ends_with_newline (header ++ rest)) eqn:E; eexists;
      (split; [reflexivity|]).
    - rewrite app_nil_r. repeat split; [now exists rest | | lia].
      now apply last_newline.
    - repeat split; [exists (rest ++ [newline]); now rewrite app_assoc | |].
      + apply last_snoc.
      + rewrite length_app. simpl. lia. }
  destruct body as [out|]; cbn [log_body].
  - replace (LOG_BUF_SIZE - length header - 1 =? 0) with false
      by (symmetry; apply Nat.eqb_neq; lia).
    unfold snprintf_text.
    destruct (Hfin (header ++ take (LOG_BUF_SIZE - length header - 1 - 1) out))
      as (line & Hline & Hpre & Hlast & Hlt & Heq).
    { now eexists. }
    { rewrite length_app, length_take. lia. }
    exists line. repeat split; try assumption.
    intros Hout. rewrite Heq, take_ge by lia.
    rewrite <- app_assoc. do 2 f_equal.
    destruct out as [|c out].
    + rewrite app_nil_r, Hend. reflexivity.
    + now rewrite ends_with_newline_app by (simpl; lia).
  - destruct (Hfin header) as (line & Hline & Hpre & Hlast & Hlt & Heq).
    { exists []. now rewrite app_nil_r. }
    { lia. }
    exists line. repeat split; try assumption.
    now rewrite Heq, Hend.
Qed.

Lemma Logger_line_witness :
  exists header line : str,
    log_header (lit "0:01:02.500") (lit "xPilot") logINFO = Some header /\
    Logger (lit "0:01:02.500") (lit "xPilot") logINFO (Some (lit "connected"))
    = Some line /\
    (exists rest, line = header ++ rest) /\
    last line = Some newline /\
    length line < LOG_BUF_SIZE /\
    (length header + length (lit "connected") + 2 <= LOG_BUF_SIZE ->
     line = header ++ lit "connected"
            ++ (if ends_with_newline (lit "connected") then [] else [newline])).
Proof.
  apply (Logger_line (lit "0:01:02.500") (lit "xPilot") logINFO
           (Some (lit "connected"))).
  rewrite LOG_BUF_SIZE_eq. simpl. lia.
Defined.

(** When the header alone fills the buffer (2047 characters or more, the
    last of those kept not a newline), no room is left: [vsnprintf] is given
    the size 0, the newline takes the place of the terminator at index 2047,
    and the new terminator is stored at index 2048, outside of [buf]. *)
Theorem Logger_full_buffer
    (clock plugin_name : str) (level : logLevel) (body : option str)
    (header : str) :
  log_header clock plugin_name level = Some header ->
  LOG_BUF_SIZE - 1 <= length header ->
  header !! (LOG_BUF_SIZE - 2) <> Some newline ->
  Logger clock plugin_name level body = None.
Proof.
  intros Hh Hlen Hlast. pose proof LOG_BUF_SIZE_eq as HB.
  unfold Logger. rewrite Hh. cbn [mbind option_bind].
  unfold snprintf_text at 1.
  assert (Hbuf : length (take (LOG_BUF_SIZE - 1) header) = LOG_BUF_SIZE - 1)
    by (apply length_take_le; lia).
  assert (Hbody : log_body (take (LOG_BUF_SIZE - 1) header) body
                  = take (LOG_BUF_SIZE - 1) header).
  { destruct body as [out|]; [|reflexivity]. unfold log_body.
    rewrite Hbuf. now replace (LOG_BUF_SIZE - (LOG_BUF_SIZE - 1) - 1) with 0 by lia. }
  rewrite Hbody. unfold log_end_line. rewrite Hbuf.
  replace (LOG_BUF_SIZE - 1 =? 0) with false
    by (symmetry; apply Nat.eqb_neq; lia).
  replace (LOG_BUF_SIZE - 1 - 1) with (LOG_BUF_SIZE - 2) by lia.
  rewrite lookup_take_lt by lia.
  destruct (header !! (LOG_BUF_SIZE - 2)) as [c|] eqn:E;
    cbn [mbind option_bind]; [|reflexivity].
  destruct (Ascii.eqb_spec c newline) as [->|_]; [now destruct Hlast|].
  now test_is (LOG_BUF_SIZE - 1 + 1 <? LOG_BUF_SIZE) false.
Qed.

Lemma Logger_full_buffer_witness :
  Logger (replicate 2040 space) (lit "xPilot") logFATAL (Some (lit "lost"))
  = None.
Proof.
  apply (Logger_full_buffer (replicate 2040 space) (lit "xPilot") logFATAL
           (Some (lit "lost"))
           (replicate 2040 space ++ [space] ++ lit "xPilot" ++ [space]
            ++ lit "[FATAL]" ++ [space])).
  - reflexivity.
  - rewrite LOG_BUF_SIZE_eq, !length_app, length_replicate. simpl. lia.
  - vm_compute. discriminate.
Defined.

End LoggerFacts.

(** * Properties of the notification panel *)

Module PanelFacts.

Import NotificationPanel Reference Scenario.

Example capacity_3_scenario :
  map text (messages (add_all 3 5 [msgA; msgB; msgC; msgD] (initial 0)))
  = [lit "B"; lit "C"; lit "D"].
Proof. reflexivity. Qed.

Example tick_scenario :
  let st := add_all 3 5 [msgA; msgB; msgC; msgD] (initial 0) in
  mDisappearTime st = 18%Z /\
  visible (onFlightLoop 17 st) = true /\
  visible (onFlightLoop 19 st) = false.
Proof. repeat split. Qed.

Section Facts.

Variable capacity : nat.
Variable displayDuration : Z.

Local Abbreviation add := (AddNotificationPanelMessage capacity displayDuration).
Local Abbreviation run := (add_all capacity displayDuration).

(** *** Eviction *)

Lemma length_last_n {A : Type} (n : nat) (l : list A) :
  length (last_n n l) = min n (length l).
Proof. unfold last_n. rewrite length_drop. lia. Qed.

(** Appending to the last [capacity] elements and evicting keeps the last
    [capacity] elements. *)
Lemma evict_last_n (l : list NotificationMessage) (m : NotificationMessage) :
  evict capacity (last_n capacity l ++ [m]) = last_n capacity (l ++ [m]).
Proof.
  unfold evict. rewrite length_app, length_last_n. simpl.
  unfold last_n. rewrite length_app. simpl.
  destruct (Nat.ltb_spec capacity (min capacity (length l) + 1)) as [Hlt|Hge].
  - rewrite <- drop_app_le by lia. rewrite drop_drop. f_equal. lia.
  - replace (length l - capacity) with 0 by lia.
    replace (length l + 1 - capacity) with 0 by lia. reflexivity.
Qed.

Lemma messages_add (now : Z) (message : str) (r g b : Q) (st : PanelState) :
  messages (add now message r g b st)
  = evict capacity (messages st ++ [mkMessage message (clamp_color r g b)]).
Proof. reflexivity. Qed.

(** The sequence after any calls: the last [capacity] of what was there and
    what the calls stored. *)
Lemma messages_add_all (calls : list add_call) (st : PanelState) :
  length (messages st) <= capacity ->
  messages (run calls st) = last_n capacity (messages st ++ map stored calls).
Proof.
  intros Hst. induction calls as [|c calls IH] using rev_ind.
  - simpl. rewrite app_nil_r. unfold last_n.
    now replace (length (messages st) - capacity) with 0 by lia.
  - unfold add_all. rewrite fold_left_app. cbn [fold_left].
    fold (run calls st). unfold do_call. rewrite messages_add, IH.
    rewrite map_app, app_assoc. apply evict_last_n.
Qed.

(** The bound on the sequence is an invariant of [AddNotificationPanelMessage]. *)
Lemma add_keeps_bound (now : Z) (message : str) (r g b : Q) (st : PanelState) :
  length (messages st) <= capacity ->
  length (messages (add now message r g b st)) <= capacity.
Proof.
  intros Hst. rewrite messages_add. unfold evict. rewrite length_app. simpl.
  destruct (Nat.ltb_spec capacity (length (messages st) + 1)).
  - rewrite length_drop, length_app. simpl. lia.
  - rewrite length_app. simpl. lia.
Qed.

(** Every operation keeps the sequence within the capacity, and the panel
    starts with an empty one. *)
Lemma step_keeps_bound (o : operation) (st : PanelState) :
  length (messages st) <= capacity ->
  length (messages (step capacity displayDuration o st)) <= capacity.
Proof.
  intros Hst. destruct o; cbn [step].
  - now apply add_keeps_bound.
  - now apply add_keeps_bound.
  - exact Hst.
  - exact Hst.
  - unfold buildInterface. now destruct (mScrollToBottom st).
  - unfold onFlightLoop. now destruct (_ && _).
Qed.

Lemma initial_within_bound (deadline : Z) :
  length (messages (initial deadline)) <= capacity.
Proof. simpl. lia. Qed.

End Facts.

(** C1. From a panel whose sequence is within the capacity, after more calls
    of [AddNotificationPanelMessage] than the capacity, the sequence holds
    exactly the messages of the last [capacity] calls, in the order of the
    calls. *)
Theorem add_retains_last_capacity
    (capacity : nat) (displayDuration : Z)
    (calls : list add_call) (st : PanelState) :
  length (messages st) <= capacity ->
  capacity < length calls ->
  messages (add_all capacity displayDuration calls st)
  = drop (length calls - capacity) (map stored calls) /\
  length (messages (add_all capacity displayDuration calls st)) = capacity.
Proof.
  intros Hst Hcalls.
  rewrite messages_add_all by assumption.
  assert (E : last_n capacity (messages st ++ map stored calls)
              = drop (length calls - capacity) (map stored calls)).
  { unfold last_n. rewrite length_app, length_map.
    rewrite drop_app_ge by lia. f_equal. lia. }
  rewrite E. split; [reflexivity|].
  rewrite length_drop, length_map. lia.
Qed.

Lemma add_retains_last_capacity_witness :
  messages (add_all 3 5 [msgA; msgB; msgC; msgD] (initial 0))
  = [stored msgB; stored msgC; stored msgD] /\
  length (messages (add_all 3 5 [msgA; msgB; msgC; msgD] (initial 0))) = 3.
Proof.
  apply (add_retains_last_capacity 3 5 [msgA; msgB; msgC; msgD] (initial 0));
    simpl; lia.
Defined.

(** *** Visibility *)





(** Two calls of [Toggle] leave the deadline as it was. *)
Lemma deadline_after_two_toggles (now1 now2 : Z) (st : PanelState) :
  mDisappearTime (Toggle now2 (Toggle now1 st)) = mDisappearTime st.
Proof. reflexivity. Qed.

(** C3, amended. Two calls of [Toggle] in succession, at the times [now1]
    and [now2], return the pin [mAlwaysVisible] to its value.  When that
    value is false, visibility is under the deadline rule again: the panel
    is visible exactly when the current time [now2] is before the deadline.
    When it is true, the panel is pinned again and visible, whatever the
    deadline. *)
Theorem toggle_twice (now1 now2 : Z) (st : PanelState) :
  mAlwaysVisible (Toggle now2 (Toggle now1 st)) = mAlwaysVisible st /\
  (mAlwaysVisible st = false ->
   (visible (Toggle now2 (Toggle now1 st)) = true <->
    (now2 < mDisappearTime st)%Z)) /\
  (mAlwaysVisible st = true ->
   visible (Toggle now2 (Toggle now1 st)) = true).
Proof.
  destruct st as [msgs deadline scroll pinned vis].
  unfold Toggle. simpl. split; [|split].
  - apply negb_involutive.
  - intros ->. simpl. destruct (Z.leb_spec deadline now2).
    + split; [discriminate | lia].
    + split; [intros _; assumption | reflexivity].
  - intros ->. reflexivity.
Qed.

Lemma toggle_twice_witness :
  mAlwaysVisible (Toggle 17 (Toggle 16 (initial 18))) = false /\
  (visible (Toggle 17 (Toggle 16 (initial 18))) = true <-> (17 < 18)%Z) /\
  (visible (Toggle 19 (Toggle 16 (initial 18))) = true <-> (19 < 18)%Z) /\
  visible (Toggle 19 (Toggle 16 (mkPanel [] 18 false true false))) = true.
Proof.
  destruct (toggle_twice 16 17 (initial 18)) as (Hpin & Hrule & _).
  destruct (toggle_twice 16 19 (initial 18)) as (_ & Hlate & _).
  destruct (toggle_twice 16 19 (mkPanel [] 18 false true false))
    as (_ & _ & Hpinned).
  split; [exact Hpin | split; [|split]].
  - exact (Hrule eq_refl).
  - exact (Hlate eq_refl).
  - exact (Hpinned eq_refl).
Defined.

(** C3 as stated, for every panel state, fails on a pinned panel: after two
    calls of [Toggle] the panel is pinned as before and visible, at a time
    past the deadline. *)
Lemma toggle_twice_pinned_not_deadline_ruled :
  ~ (forall (st : PanelState) (now1 now2 : Z),
       mAlwaysVisible (Toggle now2 (Toggle now1 st)) = mAlwaysVisible st /\
       (visible (Toggle now2 (Toggle now1 st)) = true <->
        (now2 < mDisappearTime st)%Z)).
Proof.
  intros H.
  destruct (H (mkPanel [] 18 false true true) 19%Z 20%Z) as [_ [Hvis _]].
  specialize (Hvis eq_refl). simpl in Hvis. lia.
Qed.

(** *** Colours *)

Lemma clamp_component_spec (x : Q) :
  clamped_to_byte_range x (clamp_component x).
Proof.
  unfold clamped_to_byte_range, clamp_component.
  destruct (Qlt_le_dec x 0) as [Hneg|Hpos];
    [|destruct (Qlt_le_dec 255 x) as [Hbig|Hfit]];
    (split; [split; lra | split; [|split]]);
    intros H; try reflexivity;
    try match type of H with _ /\ _ => destruct H end; exfalso; lra.
Qed.

(** With room for one message at least, the message just added is the last
    of the sequence. *)
Lemma last_evict (capacity : nat)
    (l : list NotificationMessage) (m : NotificationMessage) :
  0 < capacity -> last (evict capacity (l ++ [m])) = Some m.
Proof.
  intros Hcap. unfold evict. rewrite length_app. simpl.
  destruct (Nat.ltb_spec capacity (length l + 1)) as [Hlt|Hge].
  - destruct l as [|x l]; simpl in Hlt; [lia|].
    simpl. rewrite drop_0. apply last_snoc.
  - apply last_snoc.
Qed.

(** C4. [AddNotificationPanelMessage] accepts every colour: the message it
    stores, the last of the sequence, carries each component clamped into
    [0,255] (a component below 0 becomes 0, one above 255 becomes 255, one
    within the range is kept). *)
Theorem add_clamps_color
    (capacity : nat) (displayDuration : Z) (now : Z) (message : str)
    (r g b : Q) (st : PanelState) :
  0 < capacity ->
  exists c : Color,
    last (messages (AddNotificationPanelMessage capacity displayDuration
                      now message r g b st))
    = Some (mkMessage message c) /\
    clamped_to_byte_range r (red c) /\
    clamped_to_byte_range g (green c) /\
    clamped_to_byte_range b (blue c).
Proof.
  intros Hcap. exists (clamp_color r g b). split.
  - rewrite messages_add. now apply last_evict.
  - simpl. auto using clamp_component_spec.
Qed.

Lemma add_clamps_color_witness :
  last (messages (AddNotificationPanelMessage 3 5 0 (lit "x")
                    300 (-10) 255 (initial 0)))
  = Some (mkMessage (lit "x") (mkColor 255 0 255)).
Proof.
  destruct (add_clamps_color 3 5 0 (lit "x") 300 (-10) 255 (initial 0)
              ltac:(lia))
    as ([cr cg cb] & Hlast & (_ & _ & Hr & _) & (_ & Hg & _ & _)
        & (_ & _ & _ & Hb)).
  simpl in Hr, Hg, Hb.
  rewrite Hlast, Hr, Hg, Hb; [reflexivity | split | |]; unfold Qle, Qlt;
    simpl; lia.
Defined.

(** C7. A call of [AddNotificationPanelMessage] that gives no colour stores
    the message with the colour (255,255,255). *)
Theorem add_default_color_is_white
    (capacity : nat) (displayDuration : Z) (now : Z) (message : str)
    (st : PanelState) :
  0 < capacity ->
  last (messages (AddNotificationPanelMessage_default capacity
                    displayDuration now message st))
  = Some (mkMessage message (mkColor 255 255 255)).
Proof.
  intros Hcap. unfold AddNotificationPanelMessage_default.
  rewrite messages_add. now apply last_evict.
Qed.

Lemma add_default_color_is_white_witness :
  last (messages (AddNotificationPanelMessage_default 3 5 0 (lit "hello")
                    (initial 0)))
  = Some (mkMessage (lit "hello") (mkColor 255 255 255)).
Proof.
  apply (add_default_color_is_white 3 5 0 (lit "hello") (initial 0)). lia.
Defined.

End PanelFacts.
